(** * cipher__BitcoinAddress: the address record of [include/cipher.bitcoin.go.h]

    The header declares one C type,

      typedef struct {
        unsigned char     Version;
        cipher__Ripemd160 Key;
      } cipher__BitcoinAddress;

    and no function.  The development below embeds that declaration three
    times, each level built on the previous one:

    - the member list and the layout C computes from it (sizes, alignments,
      offsets);
    - the struct as a C value, with the operations the language gives on it
      (initialisation, member read, member assignment, byte comparison);
    - the struct as an object stored in a flat byte memory (load, store,
      struct assignment), where aliasing questions live. *)

From Stdlib Require Import ZArith String Lia.
From stdpp Require Import base numbers option list.

Local Open Scope Z_scope.

(** ** Unsigned char *)

Module UChar.

(** [CHAR_BIT] of the platforms the library is built for. *)
Definition CHAR_BIT : Z := 8.

Definition UCHAR_MAX : Z := 2 ^ CHAR_BIT - 1.

(** Conversion of an integer to [unsigned char]: reduction modulo
    [UCHAR_MAX + 1] (C11 6.3.1.3p2). *)
Definition to_uchar (n : Z) : Z := n mod (UCHAR_MAX + 1).

(** The values an [unsigned char] lvalue can hold. *)
Definition is_uchar (z : Z) : Prop := 0 <= z <= UCHAR_MAX.

Definition is_ucharb (z : Z) : bool := (0 <=? z) && (z <=? UCHAR_MAX).

End UChar.

Import UChar.

(** ** Types and layout *)

Module Layout.

(** The C types the declaration mentions. *)
Inductive ctype : Type :=
| TUChar
| TArray (elt : ctype) (n : nat).

Fixpoint sizeof (t : ctype) : nat :=
  match t with
  | TUChar => 1
  | TArray elt n => (n * sizeof elt)%nat
  end.

Fixpoint alignof (t : ctype) : nat :=
  match t with
  | TUChar => 1
  | TArray elt _ => alignof elt
  end.

(** A struct declaration is its members, in declaration order. *)
Definition members : Type := list (string * ctype).

(** Smallest multiple of [al] that is at least [off]. *)
Definition align_up (off al : nat) : nat := ((off + al - 1) / al * al)%nat.

(** Offsets of the members: each member goes to the first suitably aligned
    offset after the previous one.  Returns the offsets and the offset
    just past the last member. *)
Fixpoint place (off : nat) (ms : members) : list (string * nat) * nat :=
  match ms with
  | [] => ([], off)
  | (x, t) :: ms' =>
      let o := align_up off (alignof t) in
      let '(rest, fin) := place (o + sizeof t) ms' in
      ((x, o) :: rest, fin)
  end.

Definition struct_alignof (ms : members) : nat :=
  foldr (fun m acc => Nat.max (alignof m.2) acc) 1%nat ms.

Definition struct_sizeof (ms : members) : nat :=
  align_up (place 0 ms).2 (struct_alignof ms).

Fixpoint assoc {A : Type} (x : string) (l : list (string * A)) : option A :=
  match l with
  | [] => None
  | (y, a) :: l' => if String.eqb x y then Some a else assoc x l'
  end.

Definition offsetof (ms : members) (x : string) : option nat :=
  assoc x (place 0 ms).1.

Definition member_type (ms : members) (x : string) : option ctype :=
  assoc x ms.

(** Bytes of the struct that belong to no member. *)
Definition padding (ms : members) : nat :=
  (struct_sizeof ms - foldr (fun m acc => sizeof m.2 + acc) 0 ms)%nat.

End Layout.

Import Layout.

(** Modelled from the spec: the typedef [cipher__Ripemd160] is used by the
    header but declared in another header that is not part of the sources.
    The specification describes the member as "a fixed-size 160-bit
    (20-byte) opaque byte sequence", that is an array of 20 unsigned chars. *)
Definition cipher__Ripemd160 : ctype := TArray TUChar 20.

(** The member list of [cipher__BitcoinAddress], as declared. *)
Definition cipher__BitcoinAddress_members : members :=
  [ ("Version"%string, TUChar); ("Key"%string, cipher__Ripemd160) ].

Definition Version_offset : nat :=
  default 0%nat (offsetof cipher__BitcoinAddress_members "Version").

Definition Key_offset : nat :=
  default 0%nat (offsetof cipher__BitcoinAddress_members "Key").

Definition Key_size : nat := sizeof cipher__Ripemd160.

Definition cipher__BitcoinAddress_size : nat :=
  struct_sizeof cipher__BitcoinAddress_members.

(** ** The struct as a value *)

Record cipher__BitcoinAddress : Type := mkBitcoinAddress {
  Version : Z;
  Key : list Z
}.

(** What the C types of the members guarantee about a value. *)
Definition wf_address (a : cipher__BitcoinAddress) : Prop :=
  is_uchar (Version a) /\
  length (Key a) = Key_size /\
  Forall is_uchar (Key a).

Definition wf_addressb (a : cipher__BitcoinAddress) : bool :=
  is_ucharb (Version a) &&
  (length (Key a) =? Key_size)%nat &&
  forallb is_ucharb (Key a).

(** Initialisation [{ v, { h[0], ..., h[19] } }]: every initialiser is
    converted to the member type, array elements without an initialiser are
    zero (C11 6.7.9p21), and only [Key_size] elements exist. *)
Definition new_address (v : Z) (h : list Z) : cipher__BitcoinAddress :=
  {| Version := to_uchar v;
     Key := to_uchar <$> resize Key_size 0 h |}.

(** [a.Version = n]. *)
Definition set_Version (a : cipher__BitcoinAddress) (n : Z)
  : cipher__BitcoinAddress :=
  {| Version := to_uchar n; Key := Key a |}.

(** [a.Key[i] = n]; an index outside the array is not a defined store. *)
Definition set_Key_at (a : cipher__BitcoinAddress) (i : nat) (n : Z)
  : option cipher__BitcoinAddress :=
  if decide (i < Key_size)%nat
  then Some {| Version := Version a; Key := <[i := to_uchar n]> (Key a) |}
  else None.

(** [a.Key[i]]. *)
Definition get_Key_at (a : cipher__BitcoinAddress) (i : nat) : option Z :=
  if decide (i < Key_size)%nat then Key a !! i else None.


(** ** The struct as bytes *)

(** Overwrite [buf] from offset [off] on with the bytes [bs]. *)
Definition write_at (off : nat) (bs buf : list Z) : list Z :=
  take off buf ++ bs ++ drop (off + length bs) buf.

(** The [n] bytes of [buf] from offset [off] on; reading past the end of
    the buffer is not a defined read. *)
Definition read_at (off n : nat) (buf : list Z) : option (list Z) :=
  if decide (off + n <= length buf)%nat
  then Some (take n (drop off buf))
  else None.

(** Object representation: [sizeof] bytes, each member stored at its
    offset. *)
Definition object_bytes (a : cipher__BitcoinAddress) : list Z :=
  write_at Key_offset (Key a)
    (write_at Version_offset [Version a]
       (replicate cipher__BitcoinAddress_size 0)).

(** Reading the members back out of an object representation. *)
Definition of_object_bytes (bs : list Z) : option cipher__BitcoinAddress :=
  if decide (length bs = cipher__BitcoinAddress_size) then
    v ← bs !! Version_offset;
    k ← read_at Key_offset Key_size bs;
    Some {| Version := v; Key := k |}
  else None.

(** [memcmp(s1, s2, n)]: zero when the first [n] bytes agree, otherwise the
    difference of the first pair of bytes that differ. *)
Fixpoint memcmp (s1 s2 : list Z) (n : nat) {struct n} : option Z :=
  match n with
  | O => Some 0
  | S n' =>
      match s1, s2 with
      | x :: s1', y :: s2' =>
          if x =? y then memcmp s1' s2' n' else Some (x - y)
      | _, _ => None
      end
  end.

(** Comparison of two records: [memcmp(&a, &b, sizeof a) == 0]. *)
Definition address_eqb (a b : cipher__BitcoinAddress) : bool :=
  match memcmp (object_bytes a) (object_bytes b) cipher__BitcoinAddress_size with
  | Some r => r =? 0
  | None => false
  end.

(** ** The struct in memory *)

(** A flat byte-addressed memory; an address is an index. *)
Definition mem : Type := list Z.

Definition store_bytes (m : mem) (p : nat) (bs : list Z) : option mem :=
  if decide (p + length bs <= length m)%nat
  then Some (write_at p bs m)
  else None.

(** [p->Version]. *)
Definition load_Version (m : mem) (p : nat) : option Z :=
  m !! (p + Version_offset)%nat.

(** [p->Key], all of it. *)
Definition load_Key (m : mem) (p : nat) : option (list Z) :=
  read_at (p + Key_offset) Key_size m.

(** [*p]. *)
Definition load_address (m : mem) (p : nat) : option cipher__BitcoinAddress :=
  v ← load_Version m p;
  k ← load_Key m p;
  Some {| Version := v; Key := k |}.

(** [p->Version = n]. *)
Definition store_Version (m : mem) (p : nat) (n : Z) : option mem :=
  store_bytes m (p + Version_offset) [to_uchar n].

(** [p->Key[i] = n]. *)
Definition store_Key_at (m : mem) (p i : nat) (n : Z) : option mem :=
  if decide (i < Key_size)%nat
  then store_bytes m (p + Key_offset + i) [to_uchar n]
  else None.

(** [*p = a]. *)
Definition store_address (m : mem) (p : nat) (a : cipher__BitcoinAddress)
  : option mem :=
  store_bytes m p (object_bytes a).

(** [*dst = *src]: struct assignment copies the object representation. *)
Definition assign_address (m : mem) (dst src : nat) : option mem :=
  bs ← read_at src cipher__BitcoinAddress_size m;
  store_bytes m dst bs.

(** A new object, initialised with [(v, h)]; its storage is fresh. *)
Definition construct (m : mem) (v : Z) (h : list Z) : mem * nat :=
  (m ++ object_bytes (new_address v h), length m).

(** [memcmp(p, q, sizeof *p) == 0]. *)
Definition equal_address (m : mem) (p q : nat) : option bool :=
  x ← read_at p cipher__BitcoinAddress_size m;
  y ← read_at q cipher__BitcoinAddress_size m;
  r ← memcmp x y cipher__BitcoinAddress_size;
  Some (r =? 0).

Definition disjoint (p q : nat) : Prop :=
  (p + cipher__BitcoinAddress_size <= q \/
   q + cipher__BitcoinAddress_size <= p)%nat.

(** *** The operations of the record *)

(** Construction, the two member reads and comparison. *)
Inductive core_op : Type :=
| OpConstruct (v : Z) (h : list Z)
| OpVersion (p : nat)
| OpKey (p : nat)
| OpEqual (p q : nat).

Inductive value : Type :=
| VAddress (p : nat)
| VByte (z : Z)
| VBytes (h : list Z)
| VBool (b : bool).

Definition run_op (m : mem) (o : core_op) : mem * option value :=
  match o with
  | OpConstruct v h => let '(m', p) := construct m v h in (m', Some (VAddress p))
  | OpVersion p => (m, VByte <$> load_Version m p)
  | OpKey p => (m, VBytes <$> load_Key m p)
  | OpEqual p q => (m, VBool <$> equal_address m p q)
  end.

Fixpoint run_ops (m : mem) (os : list core_op) : mem * list (option value) :=
  match os with
  | [] => (m, [])
  | o :: os' =>
      let '(m1, r) := run_op m o in
      let '(m2, rs) := run_ops m1 os' in
      (m2, r :: rs)
  end.

Definition is_read (o : core_op) : bool :=
  match o with
  | OpVersion _ | OpKey _ => true
  | _ => false
  end.

(** *** Member assignments *)

(** The stores C allows on an object of the type: the header declares no
    member [const]. *)
Inductive mutation : Type :=
| MutVersion (n : Z)
| MutKey (i : nat) (n : Z).

Definition mutate (m : mem) (p : nat) (mu : mutation) : option mem :=
  match mu with
  | MutVersion n => store_Version m p n
  | MutKey i n => store_Key_at m p i n
  end.

Fixpoint mutate_all (m : mem) (p : nat) (mus : list mutation) : option mem :=
  match mus with
  | [] => Some m
  | mu :: mus' => m' ← mutate m p mu; mutate_all m' p mus'
  end.


(** ** Sample data *)

(** The bytes [0x01 .. 0x14]. *)
Definition hash_1_to_20 : list Z := Z.of_nat <$> seq 1 20.

Definition hash_zero : list Z := replicate 20 0.

(** A memory holding two records: [(0x00, 01..14)] at address 0 and
    [(0x6F, 00..00)] at address 21. *)
Definition sample_mem : mem :=
  (construct (construct [] 0 hash_1_to_20).1 111 hash_zero).1.


(** Operations of the record run on [sample_mem]. *)
Definition sample_ops : list core_op :=
  [ OpConstruct 300 [7]; OpVersion 0; OpKey 0; OpEqual 0 21;
    OpConstruct 5 hash_zero; OpKey 0; OpVersion 0; OpEqual 21 42 ].

(** [sample_mem] after the record at 0 is assigned to the record at 21. *)
Definition sample_copied : mem :=
  default [] (assign_address sample_mem 21 0).

(** Assignments to the members of the copy. *)
Definition sample_mutations : list mutation :=
  [ MutVersion 300; MutKey 19 (-1); MutKey 0 7 ].

Definition sample_mutated : mem :=
  default [] (mutate_all sample_copied 21 sample_mutations).


(** ** Arrays of records *)

(** [&base[k]] for [cipher__BitcoinAddress base[]]: elements lie [sizeof]
    bytes apart. *)
Definition element_address (base k : nat) : nat :=
  (base + k * cipher__BitcoinAddress_size)%nat.

(** [sample_copied] after [300] is assigned to the version of the copy. *)
Definition sample_reversioned : mem :=
  default [] (store_Version sample_copied 21 300).


(** The member assignments on the value of the record. *)
Definition assign (a : cipher__BitcoinAddress) (mu : mutation)
  : option cipher__BitcoinAddress :=
  match mu with
  | MutVersion n => Some (set_Version a n)
  | MutKey i n => set_Key_at a i n
  end.

Fixpoint assign_all (a : cipher__BitcoinAddress) (mus : list mutation)
  : option cipher__BitcoinAddress :=
  match mus with
  | [] => Some a
  | mu :: mus' => a' ← assign a mu; assign_all a' mus'
  end.


(** * Properties *)

(** ** Layout of the declaration *)

Lemma Version_offset_eq : Version_offset = 0%nat.
Proof. reflexivity. Qed.

Lemma Key_offset_eq : Key_offset = 1%nat.
Proof. reflexivity. Qed.

Lemma Key_size_eq : Key_size = 20%nat.
Proof. reflexivity. Qed.

Lemma cipher__BitcoinAddress_size_eq : cipher__BitcoinAddress_size = 21%nat.
Proof. reflexivity. Qed.

(** With byte alignment [align_up] changes nothing, and every type of the
    declaration is byte aligned: no struct over them has padding. *)
Lemma align_up_1 (off : nat) : align_up off 1 = off.
Proof.
  unfold align_up. rewrite Nat.div_1_r. lia.
Qed.

Lemma alignof_1 (t : ctype) : alignof t = 1%nat.
Proof. induction t as [|elt IH n]; [reflexivity | exact IH]. Qed.

Lemma struct_alignof_1 (ms : members) : struct_alignof ms = 1%nat.
Proof.
  induction ms as [|[x t] ms IH]; [reflexivity|].
  unfold struct_alignof in *. simpl. rewrite IH, alignof_1. reflexivity.
Qed.

Lemma place_end (ms : members) (off : nat) :
  (place off ms).2 = (off + foldr (fun m acc => sizeof m.2 + acc) 0 ms)%nat.
Proof.
  revert off. induction ms as [|[x t] ms IH]; intros off; simpl; [lia|].
  rewrite alignof_1, align_up_1.
  specialize (IH (off + sizeof t)%nat).
  destruct (place (off + sizeof t) ms) as [rest fin]. simpl in *. lia.
Qed.

Lemma padding_0 (ms : members) : padding ms = 0%nat.
Proof.
  unfold padding, struct_sizeof.
  rewrite struct_alignof_1, align_up_1, place_end. lia.
Qed.

(** ** Unsigned char conversion *)

Lemma UCHAR_MAX_eq : UCHAR_MAX = 255.
Proof. reflexivity. Qed.

Lemma to_uchar_range (n : Z) : is_uchar (to_uchar n).
Proof.
  unfold is_uchar, to_uchar. change (UCHAR_MAX + 1) with 256.
  rewrite UCHAR_MAX_eq. pose proof (Z.mod_pos_bound n 256). lia.
Qed.

Lemma to_uchar_small (z : Z) : is_uchar z -> to_uchar z = z.
Proof.
  unfold is_uchar, to_uchar. change (UCHAR_MAX + 1) with 256.
  rewrite UCHAR_MAX_eq. intros H. apply Z.mod_small. lia.
Qed.

Lemma to_uchar_idemp (n : Z) : to_uchar (to_uchar n) = to_uchar n.
Proof. apply to_uchar_small, to_uchar_range. Qed.

Lemma fmap_to_uchar_small (l : list Z) :
  Forall is_uchar l -> to_uchar <$> l = l.
Proof.
  induction 1 as [|x l Hx _ IH]; [reflexivity|].
  rewrite fmap_cons, IH, (to_uchar_small x Hx). reflexivity.
Qed.

Lemma Forall_fmap_to_uchar (l : list Z) : Forall is_uchar (to_uchar <$> l).
Proof.
  induction l as [|x l IH]; constructor; [apply to_uchar_range | exact IH].
Qed.

Lemma is_ucharb_spec (z : Z) : is_ucharb z = true <-> is_uchar z.
Proof.
  unfold is_ucharb, is_uchar. rewrite andb_true_iff, !Z.leb_le. tauto.
Qed.

Lemma wf_addressb_spec (a : cipher__BitcoinAddress) :
  wf_addressb a = true <-> wf_address a.
Proof.
  unfold wf_addressb, wf_address.
  rewrite !andb_true_iff, is_ucharb_spec, Nat.eqb_eq, forallb_forall.
  rewrite List.Forall_forall.
  split.
  - intros [[H1 H2] H3]. split; [exact H1 | split; [exact H2 |]].
    intros x Hx. apply is_ucharb_spec, H3, Hx.
  - intros (H1 & H2 & H3). split; [split; [exact H1 | exact H2] |].
    intros x Hx. apply is_ucharb_spec, H3, Hx.
Qed.

(** ** Byte buffers *)

Section Buffers.

Implicit Types (buf bs : list Z) (off n i : nat).

Lemma length_write_at off bs buf :
  (off + length bs <= length buf)%nat ->
  length (write_at off bs buf) = length buf.
Proof.
  intros H. unfold write_at.
  rewrite !length_app, length_take, length_drop. lia.
Qed.

Lemma lookup_write_at_in off bs buf i :
  (off <= length buf)%nat -> (i < length bs)%nat ->
  write_at off bs buf !! (off + i)%nat = bs !! i.
Proof.
  intros Hoff Hi. unfold write_at.
  rewrite lookup_app_r by (rewrite length_take; lia).
  rewrite length_take.
  replace (off + i - off `min` length buf)%nat with i by lia.
  apply lookup_app_l, Hi.
Qed.

Lemma lookup_write_at_first off b bs buf :
  (off <= length buf)%nat -> write_at off (b :: bs) buf !! off = Some b.
Proof.
  intros H. pose proof (lookup_write_at_in off (b :: bs) buf 0 H) as Hw.
  rewrite Nat.add_0_r in Hw. apply Hw. simpl. lia.
Qed.

Lemma lookup_write_at_out off bs buf i :
  (off + length bs <= length buf)%nat ->
  (i < off \/ off + length bs <= i)%nat ->
  write_at off bs buf !! i = buf !! i.
Proof.
  intros Hb [Hi|Hi]; unfold write_at.
  - rewrite lookup_app_l by (rewrite length_take; lia).
    apply lookup_take_lt, Hi.
  - rewrite lookup_app_r by (rewrite length_take; lia).
    rewrite lookup_app_r by (rewrite length_take; lia).
    rewrite lookup_drop, length_take. f_equal. lia.
Qed.

(** A read only depends on the bytes it covers. *)
Lemma read_at_agree off n buf1 buf2 :
  length buf1 = length buf2 ->
  (forall i, (i < n)%nat -> buf1 !! (off + i)%nat = buf2 !! (off + i)%nat) ->
  read_at off n buf1 = read_at off n buf2.
Proof.
  intros Hlen Hag. unfold read_at. rewrite Hlen.
  case_decide; [|reflexivity]. f_equal. apply list_eq. intros i.
  destruct (decide (i < n)%nat) as [Hi|Hi].
  - rewrite !lookup_take_lt, !lookup_drop by exact Hi. apply Hag, Hi.
  - rewrite !lookup_take_ge by lia. reflexivity.
Qed.

Lemma read_at_write_at_out off n off' bs buf :
  (off' + length bs <= length buf)%nat ->
  (off + n <= off' \/ off' + length bs <= off)%nat ->
  read_at off n (write_at off' bs buf) = read_at off n buf.
Proof.
  intros Hb Hd. apply read_at_agree.
  - apply length_write_at, Hb.
  - intros i Hi. apply lookup_write_at_out; [exact Hb | lia].
Qed.

Lemma read_at_write_at_same off bs buf :
  (off + length bs <= length buf)%nat ->
  read_at off (length bs) (write_at off bs buf) = Some bs.
Proof.
  intros Hb. unfold read_at.
  rewrite length_write_at by exact Hb.
  rewrite decide_True by exact Hb. f_equal. unfold write_at.
  rewrite drop_app_length' by (rewrite length_take; lia).
  apply take_app_length.
Qed.

Lemma read_at_length off n buf bs :
  read_at off n buf = Some bs -> length bs = n /\ (off + n <= length buf)%nat.
Proof.
  unfold read_at. case_decide as Hb; [|discriminate].
  intros [= <-]. rewrite length_take, length_drop. lia.
Qed.

Lemma read_at_app off n buf ext bs :
  read_at off n buf = Some bs -> read_at off n (buf ++ ext) = Some bs.
Proof.
  unfold read_at. case_decide as Hb; [|discriminate]. intros [= <-].
  rewrite decide_True by (rewrite length_app; lia). f_equal.
  apply list_eq. intros i.
  destruct (decide (i < n)%nat) as [Hi|Hi].
  - rewrite !lookup_take_lt, !lookup_drop by exact Hi.
    apply lookup_app_l. lia.
  - rewrite !lookup_take_ge by lia. reflexivity.
Qed.

Lemma read_at_app_r n buf bs :
  length bs = n -> read_at (length buf) n (buf ++ bs) = Some bs.
Proof.
  intros <-. unfold read_at.
  rewrite decide_True by (rewrite length_app; lia).
  rewrite drop_app_length. f_equal. apply take_ge. lia.
Qed.

End Buffers.

(** ** Object representation *)

Lemma object_bytes_eq (a : cipher__BitcoinAddress) :
  length (Key a) = Key_size -> object_bytes a = Version a :: Key a.
Proof.
  intros H. unfold object_bytes, write_at.
  rewrite H, Version_offset_eq, Key_offset_eq. simpl.
  rewrite app_nil_r. reflexivity.
Qed.

Lemma length_object_bytes (a : cipher__BitcoinAddress) :
  length (Key a) = Key_size ->
  length (object_bytes a) = cipher__BitcoinAddress_size.
Proof.
  intros H. rewrite object_bytes_eq by exact H. simpl. rewrite H. reflexivity.
Qed.

Lemma of_object_bytes_eq (a : cipher__BitcoinAddress) :
  length (Key a) = Key_size -> of_object_bytes (object_bytes a) = Some a.
Proof.
  intros H. unfold of_object_bytes.
  rewrite decide_True by (apply length_object_bytes, H).
  rewrite object_bytes_eq by exact H.
  rewrite Version_offset_eq, Key_offset_eq. simpl.
  unfold read_at.
  rewrite decide_True by (simpl; rewrite H; lia).
  change (drop 1 (Version a :: Key a)) with (Key a).
  rewrite take_ge by lia. destruct a; reflexivity.
Qed.

(** ** Construction *)

Lemma length_Key_new_address (v : Z) (h : list Z) :
  length (Key (new_address v h)) = Key_size.
Proof. simpl. rewrite length_fmap. apply length_resize. Qed.

Lemma wf_new_address (v : Z) (h : list Z) : wf_address (new_address v h).
Proof.
  split; [apply to_uchar_range|].
  split; [apply length_Key_new_address | apply Forall_fmap_to_uchar].
Qed.

Lemma new_address_wf_id (v : Z) (h : list Z) :
  is_uchar v -> length h = Key_size -> Forall is_uchar h ->
  new_address v h = {| Version := v; Key := h |}.
Proof.
  intros Hv Hl Hh. unfold new_address.
  rewrite (to_uchar_small v Hv), resize_all_alt by (symmetry; exact Hl).
  rewrite fmap_to_uchar_small by exact Hh. reflexivity.
Qed.

(** ** Objects in memory *)

Section Memory.

Implicit Types (m : mem) (p q : nat) (a : cipher__BitcoinAddress).

Lemma load_address_Some m p a :
  load_address m p = Some a <->
  load_Version m p = Some (Version a) /\ load_Key m p = Some (Key a).
Proof.
  unfold load_address. split.
  - destruct (load_Version m p) as [v|]; [|discriminate].
    destruct (load_Key m p) as [k|]; [|discriminate].
    simpl. intros [= <-]. split; reflexivity.
  - intros [-> ->]. destruct a; reflexivity.
Qed.

Lemma load_address_bounds m p a :
  load_address m p = Some a ->
  (p + cipher__BitcoinAddress_size <= length m)%nat /\
  length (Key a) = Key_size.
Proof.
  intros H. apply load_address_Some in H as [_ Hk].
  apply read_at_length in Hk as [Hl Hb].
  rewrite Key_offset_eq in Hb. rewrite cipher__BitcoinAddress_size_eq.
  change Key_size with 20%nat in *. lia.
Qed.

(** An object in memory can be read. *)
Lemma load_address_total m p :
  (p + cipher__BitcoinAddress_size <= length m)%nat ->
  is_Some (load_Version m p) /\ is_Some (load_Key m p) /\
  is_Some (load_address m p).
Proof.
  rewrite cipher__BitcoinAddress_size_eq. intros Hb.
  assert (Hv : is_Some (load_Version m p)).
  { apply lookup_lt_is_Some. rewrite Version_offset_eq. lia. }
  assert (Hk : is_Some (load_Key m p)).
  { unfold load_Key, read_at. rewrite decide_True; [eexists; reflexivity|].
    rewrite Key_offset_eq. change Key_size with 20%nat. lia. }
  split; [exact Hv | split; [exact Hk |]].
  destruct Hv as [v Hv], Hk as [k Hk].
  unfold load_address. rewrite Hv, Hk. eexists; reflexivity.
Qed.

(** Growing memory leaves the objects in it as they are. *)
Lemma load_address_app m p a ext :
  load_address m p = Some a -> load_address (m ++ ext) p = Some a.
Proof.
  rewrite !load_address_Some. intros [Hv Hk]. split.
  - apply lookup_app_l_Some, Hv.
  - apply read_at_app, Hk.
Qed.

(** A store outside an object leaves it as it is. *)
Lemma load_address_store_bytes m m' p q bs :
  store_bytes m q bs = Some m' ->
  (q + length bs <= p \/ p + cipher__BitcoinAddress_size <= q)%nat ->
  load_address m' p = load_address m p.
Proof.
  unfold store_bytes. case_decide as Hb; [|discriminate]. intros [= <-] Hd.
  rewrite cipher__BitcoinAddress_size_eq in Hd.
  unfold load_address, load_Version, load_Key.
  rewrite Version_offset_eq, Key_offset_eq. change Key_size with 20%nat.
  rewrite lookup_write_at_out by lia.
  rewrite read_at_write_at_out by lia. reflexivity.
Qed.

(** Reading an object is decoding its [sizeof] bytes. *)
Lemma load_address_read_at m p :
  load_address m p
  = read_at p cipher__BitcoinAddress_size m ≫= of_object_bytes.
Proof.
  unfold load_address, load_Version, load_Key, of_object_bytes, read_at.
  rewrite Version_offset_eq, Key_offset_eq, cipher__BitcoinAddress_size_eq.
  change Key_size with 20%nat.
  replace (p + 0)%nat with p by lia.
  destruct (decide (p + 21 <= length m)%nat) as [Hb|Hb].
  - rewrite (decide_True (P := (p + 1 + 20 <= length m)%nat)) by lia.
    assert (Hlen : length (take 21 (drop p m)) = 21%nat)
      by (rewrite length_take, length_drop; lia).
    assert (Hv : take 21 (drop p m) !! 0%nat = m !! p).
    { rewrite lookup_take_lt, lookup_drop by lia. f_equal. lia. }
    assert (Hk : take 20 (drop 1 (take 21 (drop p m)))
                 = take 20 (drop (p + 1) m)).
    { apply list_eq. intros i.
      destruct (decide (i < 20)%nat) as [Hi|Hi].
      - rewrite !lookup_take_lt, !lookup_drop by lia.
        rewrite lookup_take_lt, lookup_drop by lia. f_equal. lia.
      - rewrite !lookup_take_ge by lia. reflexivity. }
    cbn [mbind option_bind].
    rewrite decide_True by (rewrite Hlen; reflexivity).
    rewrite Hv. destruct (m !! p) as [v|]; [|reflexivity].
    cbn [mbind option_bind].
    rewrite decide_True by (rewrite Hlen; lia).
    cbn [mbind option_bind]. rewrite Hk. reflexivity.
  - rewrite (decide_False (P := (p + 1 + 20 <= length m)%nat)) by lia.
    destruct (m !! p); reflexivity.
Qed.

Lemma read_at_store_bytes m m' p bs :
  store_bytes m p bs = Some m' -> read_at p (length bs) m' = Some bs.
Proof.
  unfold store_bytes. case_decide as Hb; [|discriminate]. intros [= <-].
  apply read_at_write_at_same, Hb.
Qed.

Lemma length_store_bytes m m' p bs :
  store_bytes m p bs = Some m' -> length m' = length m.
Proof.
  unfold store_bytes. case_decide as Hb; [|discriminate]. intros [= <-].
  apply length_write_at, Hb.
Qed.

Lemma load_address_store_address m m' p a :
  length (Key a) = Key_size ->
  store_address m p a = Some m' -> load_address m' p = Some a.
Proof.
  intros Hl Hst. rewrite load_address_read_at.
  rewrite <- (length_object_bytes a Hl).
  rewrite (read_at_store_bytes _ _ _ _ Hst). simpl.
  apply of_object_bytes_eq, Hl.
Qed.

Lemma construct_load m v h :
  load_address (construct m v h).1 (construct m v h).2
  = Some (new_address v h).
Proof.
  unfold construct. cbn [fst snd].
  pose proof (length_Key_new_address v h) as Hl.
  rewrite load_address_read_at.
  rewrite read_at_app_r by (apply length_object_bytes, Hl).
  apply of_object_bytes_eq, Hl.
Qed.

Lemma construct_frame m v h p a :
  load_address m p = Some a -> load_address (construct m v h).1 p = Some a.
Proof. apply load_address_app. Qed.

End Memory.

(** ** Comparison *)

Lemma memcmp_zero_iff (n : nat) (xs ys : list Z) :
  length xs = n -> length ys = n ->
  memcmp xs ys n = Some 0 <-> xs = ys.
Proof.
  revert xs ys. induction n as [|n IH]; intros xs ys Hx Hy.
  - apply nil_length_inv in Hx, Hy. subst. simpl. tauto.
  - destruct xs as [|x xs]; [discriminate|].
    destruct ys as [|y ys]; [discriminate|].
    simpl in *. destruct (Z.eqb_spec x y) as [->|Hne].
    + rewrite IH by lia. split; [intros ->; reflexivity | intros [= ->]; reflexivity].
    + split; [intros [= H]; lia | intros [= H _]; contradiction].
Qed.

Lemma memcmp_total (n : nat) (xs ys : list Z) :
  length xs = n -> length ys = n -> is_Some (memcmp xs ys n).
Proof.
  revert xs ys. induction n as [|n IH]; intros xs ys Hx Hy.
  - eexists; reflexivity.
  - destruct xs as [|x xs]; [discriminate|].
    destruct ys as [|y ys]; [discriminate|].
    simpl in *. destruct (x =? y); [apply IH; lia | eexists; reflexivity].
Qed.

Lemma address_eqb_true_iff (a b : cipher__BitcoinAddress) :
  length (Key a) = Key_size -> length (Key b) = Key_size ->
  address_eqb a b = true <-> a = b.
Proof.
  intros Ha Hb. unfold address_eqb.
  pose proof (length_object_bytes a Ha) as Hla.
  pose proof (length_object_bytes b Hb) as Hlb.
  pose proof (memcmp_zero_iff _ _ _ Hla Hlb) as Hz.
  rewrite !object_bytes_eq in * by assumption.
  destruct (memcmp _ _ _) as [r|] eqn:Hm.
  - rewrite Z.eqb_eq. split.
    + intros ->. destruct Hz as [Hz _]. specialize (Hz eq_refl).
      injection Hz as Hv Hk. destruct a, b; simpl in *; congruence.
    + intros ->. destruct Hz as [_ Hz]. specialize (Hz eq_refl). congruence.
  - split; [discriminate|]. intros ->.
    destruct Hz as [_ Hz]. specialize (Hz eq_refl). discriminate.
Qed.

Lemma of_object_bytes_inv (bs : list Z) (a : cipher__BitcoinAddress) :
  of_object_bytes bs = Some a ->
  bs = Version a :: Key a /\ length (Key a) = Key_size.
Proof.
  unfold of_object_bytes. case_decide as Hl; [|discriminate].
  rewrite Version_offset_eq, Key_offset_eq, cipher__BitcoinAddress_size_eq in *.
  destruct bs as [|v bs]; [discriminate|]. simpl in Hl. simpl.
  unfold read_at. rewrite decide_True by (simpl; change Key_size with 20%nat; lia).
  simpl. intros [= <-]. simpl. change Key_size with 20%nat.
  rewrite drop_0, take_ge by lia. split; [reflexivity | lia].
Qed.

Section Operations.

Implicit Types (m : mem) (p q : nat) (a b : cipher__BitcoinAddress).

Lemma read_at_load_address m p a :
  load_address m p = Some a ->
  read_at p cipher__BitcoinAddress_size m = Some (Version a :: Key a).
Proof.
  rewrite load_address_read_at.
  destruct (read_at p _ m) as [bs|]; [|discriminate]. simpl.
  intros H. apply of_object_bytes_inv in H as [-> _]. reflexivity.
Qed.

Lemma equal_address_load m p q a b :
  load_address m p = Some a -> load_address m q = Some b ->
  equal_address m p q = Some (address_eqb a b).
Proof.
  intros Ha Hb. unfold equal_address, address_eqb.
  rewrite (read_at_load_address _ _ _ Ha), (read_at_load_address _ _ _ Hb).
  apply load_address_bounds in Ha as [_ Hla], Hb as [_ Hlb].
  rewrite !object_bytes_eq by assumption. cbn [mbind option_bind].
  destruct (memcmp_total cipher__BitcoinAddress_size
              (Version a :: Key a) (Version b :: Key b)) as [r Hr].
  - simpl. rewrite Hla. reflexivity.
  - simpl. rewrite Hlb. reflexivity.
  - rewrite Hr. reflexivity.
Qed.

(** No operation of the record writes to an existing object. *)
Lemma run_op_frame m o p a :
  load_address m p = Some a -> load_address (run_op m o).1 p = Some a.
Proof.
  intros H. destruct o as [v h| | |]; simpl; try exact H.
  apply load_address_app, H.
Qed.

Lemma run_ops_cons m o os :
  run_ops m (o :: os)
  = ((run_ops (run_op m o).1 os).1,
     (run_op m o).2 :: (run_ops (run_op m o).1 os).2).
Proof.
  cbn [run_ops]. destruct (run_op m o) as [m1 r]. cbn [fst snd].
  destruct (run_ops m1 os) as [m2 rs]. reflexivity.
Qed.

Lemma run_ops_frame m os p a :
  load_address m p = Some a -> load_address (run_ops m os).1 p = Some a.
Proof.
  revert m. induction os as [|o os IH]; intros m H; [exact H|].
  rewrite run_ops_cons. cbn [fst]. apply IH, run_op_frame, H.
Qed.

(** Reads leave the whole memory as it is. *)
Lemma run_op_read m o : is_read o = true -> (run_op m o).1 = m.
Proof. destruct o; simpl; intros H; solve [reflexivity | discriminate]. Qed.

Lemma run_ops_read m os : forallb is_read os = true -> (run_ops m os).1 = m.
Proof.
  revert m. induction os as [|o os IH]; intros m H; [reflexivity|].
  simpl in H. apply andb_true_iff in H as [Ho Hos].
  rewrite run_ops_cons. cbn [fst].
  rewrite (run_op_read m o Ho). apply IH, Hos.
Qed.

(** The result of the [i]-th operation is the one it gives in the memory
    left by the operations before it. *)
Lemma run_ops_lookup m os i o :
  os !! i = Some o ->
  (run_ops m os).2 !! i = Some (run_op (run_ops m (take i os)).1 o).2.
Proof.
  revert m i. induction os as [|o' os IH]; intros m i H; [discriminate|].
  rewrite run_ops_cons. cbn [snd]. destruct i as [|i].
  - injection H as ->. reflexivity.
  - simpl in H. cbn [take]. rewrite run_ops_cons. cbn [fst].
    simpl. apply IH, H.
Qed.

(** A member assignment to one object leaves a disjoint object as it is. *)
Lemma mutate_frame m m' p q mu a :
  disjoint p q -> load_address m p = Some a ->
  mutate m q mu = Some m' -> load_address m' p = Some a.
Proof.
  unfold disjoint. rewrite cipher__BitcoinAddress_size_eq.
  intros Hd Ha Hmu. rewrite <- Ha.
  destruct mu as [n|i n]; simpl in Hmu.
  - unfold store_Version in Hmu. rewrite Version_offset_eq in Hmu.
    apply (load_address_store_bytes _ _ _ _ _ Hmu).
    rewrite cipher__BitcoinAddress_size_eq. simpl. lia.
  - unfold store_Key_at in Hmu. case_decide as Hi; [|discriminate].
    rewrite Key_offset_eq in Hmu. change Key_size with 20%nat in Hi.
    apply (load_address_store_bytes _ _ _ _ _ Hmu).
    rewrite cipher__BitcoinAddress_size_eq. simpl. lia.
Qed.

Lemma mutate_all_frame m m' p q mus a :
  disjoint p q -> load_address m p = Some a ->
  mutate_all m q mus = Some m' -> load_address m' p = Some a.
Proof.
  intros Hd. revert m. induction mus as [|mu mus IH]; intros m Ha Hmu.
  - injection Hmu as <-. exact Ha.
  - simpl in Hmu. destruct (mutate m q mu) as [m1|] eqn:H1; [|discriminate].
    simpl in Hmu. apply (IH m1); [|exact Hmu].
    apply (mutate_frame m m1 p q mu a Hd Ha H1).
Qed.

Lemma assign_address_load m m' p q a :
  load_address m p = Some a -> assign_address m q p = Some m' ->
  load_address m' q = Some a.
Proof.
  intros Ha Has. unfold assign_address in Has.
  pose proof (load_address_bounds _ _ _ Ha) as [_ Hl].
  rewrite (read_at_load_address _ _ _ Ha) in Has. simpl in Has.
  rewrite load_address_read_at.
  replace cipher__BitcoinAddress_size with (length (Version a :: Key a))
    by (simpl; rewrite Hl; reflexivity).
  rewrite (read_at_store_bytes _ _ _ _ Has). simpl.
  rewrite <- (object_bytes_eq a Hl). apply of_object_bytes_eq, Hl.
Qed.

Lemma assign_address_frame m m' p q a :
  disjoint p q -> load_address m p = Some a ->
  assign_address m q p = Some m' -> load_address m' p = Some a.
Proof.
  unfold disjoint. intros Hd Ha Has. unfold assign_address in Has.
  destruct (read_at p _ m) as [bs|] eqn:Hr; [|discriminate]. simpl in Has.
  apply read_at_length in Hr as [Hlen _].
  rewrite <- Ha. apply (load_address_store_bytes _ _ _ _ _ Has).
  rewrite Hlen. lia.
Qed.

(** The stores in memory are the member assignments of the value. *)
Lemma store_Version_load m p a n :
  load_address m p = Some a ->
  exists m', store_Version m p n = Some m' /\
             load_address m' p = Some (set_Version a n).
Proof.
  intros Ha. pose proof (load_address_bounds _ _ _ Ha) as [Hb Hl].
  rewrite cipher__BitcoinAddress_size_eq in Hb.
  apply load_address_Some in Ha as [Hv Hk].
  unfold store_Version, store_bytes. rewrite Version_offset_eq.
  rewrite decide_True by (simpl; lia). eexists; split; [reflexivity|].
  apply load_address_Some. unfold load_Version, load_Key in *.
  rewrite Version_offset_eq, Key_offset_eq in *. split.
  - rewrite lookup_write_at_first by lia. reflexivity.
  - rewrite read_at_write_at_out by (simpl; lia). exact Hk.
Qed.

Lemma store_Key_at_load m p a i n :
  load_address m p = Some a -> (i < 20)%nat ->
  exists m', store_Key_at m p i n = Some m' /\
             load_address m' p = set_Key_at a i n.
Proof.
  intros Ha Hi. pose proof (load_address_bounds _ _ _ Ha) as [Hb Hl].
  rewrite cipher__BitcoinAddress_size_eq in Hb.
  change Key_size with 20%nat in Hl.
  apply load_address_Some in Ha as [Hv Hk].
  unfold set_Key_at, store_Key_at, store_bytes.
  rewrite Key_offset_eq. change Key_size with 20%nat.
  rewrite !decide_True by (simpl; lia).
  eexists; split; [reflexivity|].
  apply load_address_Some. unfold load_Version, load_Key in *.
  rewrite Version_offset_eq, Key_offset_eq in *.
  change Key_size with 20%nat in *. cbn [Version Key]. split.
  - rewrite lookup_write_at_out by (simpl; lia). exact Hv.
  - unfold read_at in *.
    rewrite length_write_at by (simpl; lia).
    rewrite decide_True in * by lia. f_equal.
    injection Hk as Hk. rewrite <- Hk.
    apply list_eq. intros k.
    destruct (decide (k < 20)%nat) as [Hlt|Hge].
    + rewrite lookup_take_lt, lookup_drop by exact Hlt.
      destruct (decide (i = k)) as [->|Hne].
      * rewrite list_lookup_insert_eq
          by (rewrite length_take, length_drop; lia).
        rewrite lookup_write_at_first by lia. reflexivity.
      * rewrite list_lookup_insert_ne by exact Hne.
        rewrite lookup_write_at_out by (simpl; lia).
        rewrite lookup_take_lt, lookup_drop by exact Hlt. reflexivity.
    + rewrite lookup_take_ge by lia. symmetry.
      apply lookup_ge_None. rewrite length_insert, length_take. lia.
Qed.

End Operations.

(** * The record's contract *)

(** C1. Field preservation: for every byte value [v] (0-255) and every
    20-byte sequence [h], a record constructed from [(v, h)] reads back as
    exactly [(v, h)], as a value and as an object in memory: nothing is
    transformed, truncated or reordered. *)
Theorem field_preservation (v : Z) (h : list Z) :
  0 <= v <= 255 -> length h = 20%nat -> Forall (fun b => 0 <= b <= 255) h ->
  Version (new_address v h) = v /\
  Key (new_address v h) = h /\
  forall m : mem,
    load_Version (construct m v h).1 (construct m v h).2 = Some v /\
    load_Key (construct m v h).1 (construct m v h).2 = Some h.
Proof.
  intros Hv Hl Hh.
  assert (E : new_address v h = {| Version := v; Key := h |})
    by (apply new_address_wf_id; assumption).
  split; [rewrite E; reflexivity|].
  split; [rewrite E; reflexivity|].
  intros m. pose proof (construct_load m v h) as H.
  apply load_address_Some in H. rewrite E in H. exact H.
Qed.

Lemma field_preservation_witness :
  Version (new_address 0 hash_1_to_20) = 0 /\
  Key (new_address 0 hash_1_to_20) = hash_1_to_20 /\
  forall m : mem,
    load_Version (construct m 0 hash_1_to_20).1 (construct m 0 hash_1_to_20).2
    = Some 0 /\
    load_Key (construct m 0 hash_1_to_20).1 (construct m 0 hash_1_to_20).2
    = Some hash_1_to_20.
Proof.
  apply (field_preservation 0 hash_1_to_20).
  - lia.
  - reflexivity.
  - unfold hash_1_to_20. simpl. repeat (constructor; [lia|]). constructor.
Defined.

(** The second scenario of the specification: version [0x6F] with an
    all-zero hash. *)
Example new_address_6F_zero :
  Version (new_address 111 hash_zero) = 111 /\
  Key (new_address 111 hash_zero) = replicate 20 0.
Proof. split; reflexivity. Qed.

(** C3. Size invariant: in every constructed record the version member
    occupies exactly 1 byte and the hash member exactly 20 bytes, and the
    record is exactly these 1 + 20 = 21 bytes. *)
Theorem size_invariant (v : Z) (h : list Z) :
  sizeof <$> member_type cipher__BitcoinAddress_members "Version" = Some 1%nat /\
  sizeof <$> member_type cipher__BitcoinAddress_members "Key" = Some 20%nat /\
  cipher__BitcoinAddress_size = (1 + 20)%nat /\
  padding cipher__BitcoinAddress_members = 0%nat /\
  0 <= Version (new_address v h) <= 255 /\
  length (Key (new_address v h)) = 20%nat /\
  Forall (fun b => 0 <= b <= 255) (Key (new_address v h)) /\
  length (object_bytes (new_address v h)) = 21%nat.
Proof.
  destruct (wf_new_address v h) as (Hv & Hl & Hk).
  repeat split; try reflexivity.
  - apply Hv.
  - apply Hv.
  - exact Hl.
  - exact Hk.
  - apply length_object_bytes, Hl.
Qed.

(** C4. No operation of the record can fail: construction takes any version
    and any hash without validating them and always yields a record, and
    from then on, whatever operations of the record run in between, reading
    its version, reading its hash and comparing it always give a result. *)
Theorem operations_total (m : mem) (v : Z) (h : list Z) (os : list core_op) :
  let m0 := (construct m v h).1 in
  let p := (construct m v h).2 in
  let m1 := (run_ops m0 os).1 in
  load_address m0 p = Some (new_address v h) /\
  (run_op m1 (OpVersion p)).2 = Some (VByte (Version (new_address v h))) /\
  (run_op m1 (OpKey p)).2 = Some (VBytes (Key (new_address v h))) /\
  (run_op m1 (OpEqual p p)).2 = Some (VBool true) /\
  length (Key (new_address v h)) = 20%nat.
Proof.
  intros m0 p m1.
  pose proof (construct_load m v h) as H0. fold m0 p in H0.
  pose proof (run_ops_frame m0 os p _ H0) as H1. fold m1 in H1.
  pose proof (length_Key_new_address v h) as Hl.
  pose proof H1 as H2. apply load_address_Some in H2 as [Hv Hk].
  split; [exact H0|]. cbn [run_op snd].
  rewrite Hv, Hk, (equal_address_load _ _ _ _ _ H1 H1).
  replace (address_eqb (new_address v h) (new_address v h)) with true.
  - repeat split; exact Hl.
  - symmetry. apply address_eqb_true_iff; [exact Hl | exact Hl | reflexivity].
Qed.

(** C2. Equality is structural: two records (each with its 20-byte hash)
    compare equal, and are the same value, if and only if their version
    members are equal and their hash members are equal byte for byte. *)
Theorem equality_structural (a b : cipher__BitcoinAddress) :
  length (Key a) = 20%nat -> length (Key b) = 20%nat ->
  (address_eqb a b = true <-> Version a = Version b /\ Key a = Key b) /\
  (a = b <-> Version a = Version b /\ Key a = Key b).
Proof.
  intros Ha Hb.
  assert (E : a = b <-> Version a = Version b /\ Key a = Key b).
  { split; [intros ->; split; reflexivity|].
    destruct a, b; simpl. intros [-> ->]. reflexivity. }
  split; [|exact E].
  rewrite <- E. apply address_eqb_true_iff; assumption.
Qed.

Lemma equality_structural_witness :
  (address_eqb (new_address 0 hash_1_to_20) (new_address 111 hash_zero) = true
   <-> Version (new_address 0 hash_1_to_20) = Version (new_address 111 hash_zero)
       /\ Key (new_address 0 hash_1_to_20) = Key (new_address 111 hash_zero)) /\
  (new_address 0 hash_1_to_20 = new_address 111 hash_zero
   <-> Version (new_address 0 hash_1_to_20) = Version (new_address 111 hash_zero)
       /\ Key (new_address 0 hash_1_to_20) = Key (new_address 111 hash_zero)).
Proof.
  apply (equality_structural (new_address 0 hash_1_to_20)
           (new_address 111 hash_zero)); reflexivity.
Defined.

(** Records that differ in one hash byte only, or in the version only,
    compare unequal; a record compares equal to itself. *)
Example address_eqb_samples :
  address_eqb (new_address 0 hash_zero) (new_address 0 hash_zero) = true /\
  address_eqb (new_address 0 hash_zero) (new_address 1 hash_zero) = false /\
  address_eqb (new_address 0 hash_zero)
              (new_address 0 (<[19%nat := 1]> hash_zero)) = false.
Proof. repeat split; reflexivity. Qed.

(** C5. Immutability under the record's own operations: whatever sequence
    of constructions, version reads, hash reads and comparisons runs, a
    record that exists keeps the version and the hash it has. *)
Theorem immutable_under_core_ops
  (m : mem) (p : nat) (a : cipher__BitcoinAddress) (os : list core_op) :
  load_address m p = Some a ->
  load_Version (run_ops m os).1 p = Some (Version a) /\
  load_Key (run_ops m os).1 p = Some (Key a).
Proof.
  intros H. apply load_address_Some, run_ops_frame, H.
Qed.

Lemma immutable_under_core_ops_witness :
  load_Version (run_ops sample_mem sample_ops).1 21 = Some 111 /\
  load_Key (run_ops sample_mem sample_ops).1 21 = Some hash_zero.
Proof.
  apply (immutable_under_core_ops sample_mem 21
           (new_address 111 hash_zero) sample_ops).
  reflexivity.
Defined.

(** C6. Byte order: the bytes of a record are exactly 21, the version byte
    first and the 20 hash bytes after it, and reading them in that order
    gives the version and the hash back. *)
Theorem serialization_order (m : mem) (p : nat) (a : cipher__BitcoinAddress) :
  load_address m p = Some a ->
  read_at p cipher__BitcoinAddress_size m = Some (Version a :: Key a) /\
  object_bytes a = Version a :: Key a /\
  length (object_bytes a) = (1 + 20)%nat /\
  object_bytes a !! 0%nat = Some (Version a) /\
  read_at 1 20 (object_bytes a) = Some (Key a) /\
  of_object_bytes (object_bytes a) = Some a.
Proof.
  intros H. pose proof (load_address_bounds _ _ _ H) as [_ Hl].
  split; [apply read_at_load_address, H|].
  split; [apply object_bytes_eq, Hl|].
  split; [apply length_object_bytes, Hl|].
  split; [rewrite object_bytes_eq by exact Hl; reflexivity|].
  split; [|apply of_object_bytes_eq, Hl].
  rewrite object_bytes_eq by exact Hl. unfold read_at.
  rewrite decide_True by (simpl; rewrite Hl; reflexivity).
  change (drop 1 (Version a :: Key a)) with (Key a).
  rewrite take_ge by (rewrite Hl; reflexivity). reflexivity.
Qed.

Lemma serialization_order_witness :
  read_at 21 cipher__BitcoinAddress_size sample_mem
  = Some (111 :: hash_zero) /\
  object_bytes (new_address 111 hash_zero) = 111 :: hash_zero /\
  length (object_bytes (new_address 111 hash_zero)) = (1 + 20)%nat /\
  object_bytes (new_address 111 hash_zero) !! 0%nat = Some 111 /\
  read_at 1 20 (object_bytes (new_address 111 hash_zero)) = Some hash_zero /\
  of_object_bytes (object_bytes (new_address 111 hash_zero))
  = Some (new_address 111 hash_zero).
Proof.
  apply (serialization_order sample_mem 21 (new_address 111 hash_zero)).
  reflexivity.
Defined.

(** C7. Copy independence: after a record is copied into separate storage,
    the copy holds the same version and hash, and no assignment to the
    members of the copy changes the version or the hash of the original. *)
Theorem copy_independence
  (m m1 m2 : mem) (p q : nat) (a : cipher__BitcoinAddress)
  (mus : list mutation) :
  load_address m p = Some a ->
  disjoint p q ->
  assign_address m q p = Some m1 ->
  mutate_all m1 q mus = Some m2 ->
  load_address m1 q = Some a /\
  load_Version m2 p = Some (Version a) /\
  load_Key m2 p = Some (Key a).
Proof.
  intros Ha Hd Has Hmu.
  split; [apply (assign_address_load m m1 p q a Ha Has)|].
  apply load_address_Some.
  apply (mutate_all_frame m1 m2 p q mus a Hd); [|exact Hmu].
  apply (assign_address_frame m m1 p q a Hd Ha Has).
Qed.

Lemma copy_independence_witness :
  load_address sample_copied 21 = Some (new_address 0 hash_1_to_20) /\
  load_Version sample_mutated 0 = Some 0 /\
  load_Key sample_mutated 0 = Some hash_1_to_20.
Proof.
  apply (copy_independence sample_mem sample_copied sample_mutated 0 21
           (new_address 0 hash_1_to_20) sample_mutations).
  - reflexivity.
  - left. vm_compute. lia.
  - reflexivity.
  - reflexivity.
Defined.

(** The assignments of the witness did change the copy. *)
Example sample_mutated_copy :
  load_address sample_mutated 21
  = Some {| Version := 44; Key := 7 :: (Z.of_nat <$> seq 2 18) ++ [255] |}.
Proof. reflexivity. Qed.

(** C8. No state beyond the two members: records with equal version and
    equal hash are the same record, no function can tell them apart, their
    bytes are the same, and the struct has no byte outside its members. *)
Theorem extensionality (a b : cipher__BitcoinAddress) :
  Version a = Version b -> Key a = Key b ->
  a = b /\
  (forall (T : Type) (f : cipher__BitcoinAddress -> T), f a = f b) /\
  object_bytes a = object_bytes b /\
  padding cipher__BitcoinAddress_members = 0%nat.
Proof.
  intros Hv Hk.
  assert (E : a = b) by (destruct a, b; simpl in *; congruence).
  subst b. repeat split; reflexivity.
Qed.

Lemma extensionality_witness :
  new_address 256 hash_zero = {| Version := 0; Key := hash_zero |} /\
  (forall (T : Type) (f : cipher__BitcoinAddress -> T),
      f (new_address 256 hash_zero) = f {| Version := 0; Key := hash_zero |}) /\
  object_bytes (new_address 256 hash_zero)
  = object_bytes {| Version := 0; Key := hash_zero |} /\
  padding cipher__BitcoinAddress_members = 0%nat.
Proof.
  apply (extensionality (new_address 256 hash_zero)
           {| Version := 0; Key := hash_zero |}); reflexivity.
Defined.

(** C9. The version member is an unsigned 8-bit quantity: storing any
    integer [n] in it, by assignment, by construction or through memory,
    leaves [n mod 2^8] there, a value between 0 and 255. *)
Theorem version_unsigned_8bit
  (n : Z) (a : cipher__BitcoinAddress) (h : list Z) (m : mem) (p : nat) :
  Version (set_Version a n) = n mod 2 ^ 8 /\
  Version (new_address n h) = n mod 2 ^ 8 /\
  (store_Version m p n ≫= fun m' => load_Version m' p)
  = (if decide (p < length m)%nat then Some (n mod 2 ^ 8) else None) /\
  0 <= n mod 2 ^ 8 <= 255.
Proof.
  split; [reflexivity|]. split; [reflexivity|]. split.
  - unfold store_Version, store_bytes, load_Version.
    rewrite Version_offset_eq, Nat.add_0_r. cbn [length].
    destruct (decide (p < length m)%nat) as [Hp|Hp].
    + rewrite decide_True by lia. cbn [mbind option_bind].
      apply lookup_write_at_first. lia.
    + rewrite decide_False by lia. reflexivity.
  - apply (to_uchar_range n).
Qed.

Example version_wraps :
  Version (set_Version (new_address 0 hash_zero) 256) = 0 /\
  Version (set_Version (new_address 0 hash_zero) (-1)) = 255 /\
  Version (set_Version (new_address 0 hash_zero) 367) = 111.
Proof. repeat split; reflexivity. Qed.

(** A sequence of reads leaves memory as it was. *)
Lemma run_ops_filter_read (m : mem) (os : list core_op) :
  (run_ops m (List.filter is_read os)).1 = m.
Proof.
  apply run_ops_read, forallb_forall. intros o Ho.
  apply List.filter_In in Ho as [_ Ho]. exact Ho.
Qed.

(** C10. Reads are deterministic and without effect: in any sequence of
    operations of the record, any two reads of the version of a record give
    the same byte, and any two reads of its hash give the same 20 bytes,
    wherever in the sequence they stand and whatever else the sequence
    holds; reads leave memory exactly as it was. *)
Theorem reads_deterministic
  (m : mem) (p : nat) (a : cipher__BitcoinAddress) (os : list core_op) :
  load_address m p = Some a ->
  (forall i1 i2 : nat,
      os !! i1 = Some (OpVersion p) -> os !! i2 = Some (OpVersion p) ->
      (run_ops m os).2 !! i1 = Some (Some (VByte (Version a))) /\
      (run_ops m os).2 !! i2 = (run_ops m os).2 !! i1) /\
  (forall j1 j2 : nat,
      os !! j1 = Some (OpKey p) -> os !! j2 = Some (OpKey p) ->
      (run_ops m os).2 !! j1 = Some (Some (VBytes (Key a))) /\
      (run_ops m os).2 !! j2 = (run_ops m os).2 !! j1) /\
  length (Key a) = 20%nat /\
  (run_op m (OpVersion p)).1 = m /\
  (run_op m (OpKey p)).1 = m /\
  (run_ops m (List.filter is_read os)).1 = m.
Proof.
  intros H.
  assert (Hpre : forall k,
             load_Version (run_ops m (take k os)).1 p = Some (Version a) /\
             load_Key (run_ops m (take k os)).1 p = Some (Key a))
    by (intros k; apply load_address_Some, run_ops_frame, H).
  assert (Hv : forall i, os !! i = Some (OpVersion p) ->
             (run_ops m os).2 !! i = Some (Some (VByte (Version a)))).
  { intros i Hi. rewrite (run_ops_lookup m os i _ Hi). cbn [run_op snd].
    destruct (Hpre i) as [-> _]. reflexivity. }
  assert (Hk : forall j, os !! j = Some (OpKey p) ->
             (run_ops m os).2 !! j = Some (Some (VBytes (Key a)))).
  { intros j Hj. rewrite (run_ops_lookup m os j _ Hj). cbn [run_op snd].
    destruct (Hpre j) as [_ ->]. reflexivity. }
  split; [|split; [|split; [|split; [|split]]]].
  - intros i1 i2 Hi1 Hi2. rewrite (Hv i1 Hi1), (Hv i2 Hi2).
    split; reflexivity.
  - intros j1 j2 Hj1 Hj2. rewrite (Hk j1 Hj1), (Hk j2 Hj2).
    split; reflexivity.
  - apply (load_address_bounds m p a H).
  - reflexivity.
  - reflexivity.
  - apply run_ops_filter_read.
Qed.

(** The theorem at [sample_ops], which mixes all four operations, and at a
    sequence that only reads a version, twice. *)
Lemma reads_deterministic_witness :
  ((run_ops sample_mem sample_ops).2 !! 1%nat = Some (Some (VByte 0)) /\
   (run_ops sample_mem sample_ops).2 !! 6%nat
   = (run_ops sample_mem sample_ops).2 !! 1%nat) /\
  ((run_ops sample_mem sample_ops).2 !! 2%nat
   = Some (Some (VBytes hash_1_to_20)) /\
   (run_ops sample_mem sample_ops).2 !! 5%nat
   = (run_ops sample_mem sample_ops).2 !! 2%nat) /\
  ((run_ops sample_mem [OpVersion 21; OpVersion 21]).2 !! 0%nat
   = Some (Some (VByte 111)) /\
   (run_ops sample_mem [OpVersion 21; OpVersion 21]).2 !! 1%nat
   = (run_ops sample_mem [OpVersion 21; OpVersion 21]).2 !! 0%nat) /\
  (run_ops sample_mem (List.filter is_read sample_ops)).1 = sample_mem.
Proof.
  pose proof (reads_deterministic sample_mem 0 (new_address 0 hash_1_to_20)
                sample_ops eq_refl) as (Hv & Hk & _ & _ & _ & Hm).
  pose proof (reads_deterministic sample_mem 21 (new_address 111 hash_zero)
                [OpVersion 21; OpVersion 21] eq_refl) as (Hv' & _).
  split; [exact (Hv 1%nat 6%nat eq_refl eq_refl)|].
  split; [exact (Hk 2%nat 5%nat eq_refl eq_refl)|].
  split; [exact (Hv' 0%nat 1%nat eq_refl eq_refl) | exact Hm].
Defined.

(** * Further properties of the declaration *)

(** X1. The two members do not overlap.  On a record in memory, assigning
    to [Version] always succeeds, leaves [n mod 2^8] in the version and the
    hash as it was; assigning to [Key[i]], [i < 20], always succeeds,
    changes that one hash byte to [n mod 2^8] and leaves the version and
    the other hash bytes as they were. *)
Theorem member_stores_independent
  (m : mem) (p : nat) (a : cipher__BitcoinAddress) (i : nat) (nv n : Z) :
  load_address m p = Some a -> (i < 20)%nat ->
  (exists m1, store_Version m p nv = Some m1 /\
              load_Version m1 p = Some (nv mod 2 ^ 8) /\
              load_Key m1 p = Some (Key a)) /\
  (exists m2, store_Key_at m p i n = Some m2 /\
              load_Version m2 p = Some (Version a) /\
              load_Key m2 p = Some (<[i := n mod 2 ^ 8]> (Key a))).
Proof.
  intros Ha Hi. split.
  - destruct (store_Version_load m p a nv Ha) as (m1 & Hs & Hl).
    exists m1. split; [exact Hs|].
    apply load_address_Some in Hl. exact Hl.
  - destruct (store_Key_at_load m p a i n Ha Hi) as (m2 & Hs & Hl).
    exists m2. split; [exact Hs|].
    unfold set_Key_at in Hl.
    rewrite decide_True in Hl by (change Key_size with 20%nat; exact Hi).
    apply load_address_Some in Hl. exact Hl.
Qed.

Lemma member_stores_independent_witness :
  (exists m1, store_Version sample_mem 0 300 = Some m1 /\
              load_Version m1 0 = Some (300 mod 2 ^ 8) /\
              load_Key m1 0 = Some (Key (new_address 0 hash_1_to_20))) /\
  (exists m2, store_Key_at sample_mem 0 19 (-1) = Some m2 /\
              load_Version m2 0 = Some (Version (new_address 0 hash_1_to_20)) /\
              load_Key m2 0
              = Some (<[19%nat := (-1) mod 2 ^ 8]>
                        (Key (new_address 0 hash_1_to_20)))).
Proof.
  apply (member_stores_independent sample_mem 0
           (new_address 0 hash_1_to_20) 19 300 (-1)).
  - reflexivity.
  - lia.
Defined.

(** X2. The bytes of the struct are exactly its members: a byte buffer
    decodes to a record precisely when it is 21 bytes long, and it decodes
    to [a] precisely when it is the object representation of [a] (with its
    20-byte hash).  No 21 bytes fail to be a record and no two records
    share their bytes. *)
Theorem object_representation_exact
  (bs : list Z) (a : cipher__BitcoinAddress) :
  (of_object_bytes bs = Some a
   <-> length (Key a) = 20%nat /\ object_bytes a = bs) /\
  (is_Some (of_object_bytes bs) <-> length bs = 21%nat).
Proof.
  split.
  - split.
    + intros H. apply of_object_bytes_inv in H as [-> Hl].
      split; [exact Hl | apply object_bytes_eq, Hl].
    + intros [Hl <-]. apply of_object_bytes_eq, Hl.
  - split.
    + intros [b Hb]. apply of_object_bytes_inv in Hb as [-> Hl].
      simpl. rewrite Hl. reflexivity.
    + intros Hl. destruct bs as [|v k]; [discriminate|].
      simpl in Hl. exists {| Version := v; Key := k |}.
      assert (Hk : length (Key {| Version := v; Key := k |}) = Key_size)
        by (simpl; change Key_size with 20%nat; lia).
      pose proof (of_object_bytes_eq _ Hk) as Hd.
      rewrite (object_bytes_eq _ Hk) in Hd. exact Hd.
Qed.

(** X3. Only the low 8 bits of a version are kept: records built from the
    same hash and versions [v], [v'] are the same record, and compare
    equal, exactly when [v] and [v'] are congruent modulo 256. *)
Theorem version_congruence (v v' : Z) (h : list Z) :
  (new_address v h = new_address v' h <-> v mod 2 ^ 8 = v' mod 2 ^ 8) /\
  (address_eqb (new_address v h) (new_address v' h) = true
   <-> v mod 2 ^ 8 = v' mod 2 ^ 8).
Proof.
  assert (E : new_address v h = new_address v' h
              <-> v mod 2 ^ 8 = v' mod 2 ^ 8).
  { unfold new_address. split.
    - intros [= H]. exact H.
    - intros H. change (to_uchar v) with (v mod 2 ^ 8).
      change (to_uchar v') with (v' mod 2 ^ 8). rewrite H. reflexivity. }
  split; [exact E|]. rewrite <- E.
  apply address_eqb_true_iff; apply length_Key_new_address.
Qed.

Example version_256_is_0 :
  address_eqb (new_address 256 hash_zero) (new_address 0 hash_zero) = true /\
  address_eqb (new_address 255 hash_zero) (new_address (-1) hash_zero) = true /\
  address_eqb (new_address 255 hash_zero) (new_address 0 hash_zero) = false.
Proof. repeat split; reflexivity. Qed.

(** X4. A copy compares equal to its original, and the comparison sees a
    later change of the copy: after [*q = *p] on separate storage the two
    records compare equal; after a further [q->Version = n] they compare
    equal exactly when [n mod 2^8] is the original's version. *)
Theorem copy_compares_equal
  (m m1 m2 : mem) (p q : nat) (a : cipher__BitcoinAddress) (n : Z) :
  load_address m p = Some a ->
  disjoint p q ->
  assign_address m q p = Some m1 ->
  store_Version m1 q n = Some m2 ->
  equal_address m1 p q = Some true /\
  equal_address m2 p q = Some (Version a =? n mod 2 ^ 8).
Proof.
  intros Ha Hd Has Hst.
  pose proof (load_address_bounds _ _ _ Ha) as [_ Hl].
  pose proof (assign_address_frame m m1 p q a Hd Ha Has) as Hp1.
  pose proof (assign_address_load m m1 p q a Ha Has) as Hq1.
  split.
  - rewrite (equal_address_load _ _ _ _ _ Hp1 Hq1). f_equal.
    apply address_eqb_true_iff; [exact Hl | exact Hl | reflexivity].
  - assert (Hp2 : load_address m2 p = Some a)
      by (apply (mutate_frame m1 m2 p q (MutVersion n) a Hd Hp1 Hst)).
    destruct (store_Version_load m1 q a n Hq1) as (m' & Hs & Hq2).
    rewrite Hst in Hs. injection Hs as <-.
    rewrite (equal_address_load _ _ _ _ _ Hp2 Hq2). f_equal.
    destruct (Z.eqb_spec (Version a) (n mod 2 ^ 8)) as [He|Hne].
    + apply address_eqb_true_iff; [exact Hl | exact Hl |].
      destruct a as [va ka]. unfold set_Version. simpl in *.
      rewrite He. reflexivity.
    + apply not_true_is_false. intros Ht.
      apply address_eqb_true_iff in Ht; [|exact Hl | exact Hl].
      apply Hne. rewrite Ht at 1. reflexivity.
Qed.

Lemma copy_compares_equal_witness :
  equal_address sample_copied 0 21 = Some true /\
  equal_address sample_reversioned 0 21
  = Some (Version (new_address 0 hash_1_to_20) =? 300 mod 2 ^ 8).
Proof.
  apply (copy_compares_equal sample_mem sample_copied sample_reversioned
           0 21 (new_address 0 hash_1_to_20) 300).
  - reflexivity.
  - left. vm_compute. lia.
  - reflexivity.
  - reflexivity.
Defined.

(** X5. Elements of an array of records are independent: the elements lie
    21 bytes apart, and no sequence of assignments to the members of
    element [j] changes the version or the hash of another element [k]. *)
Theorem array_elements_independent
  (m m' : mem) (base j k : nat) (a : cipher__BitcoinAddress)
  (mus : list mutation) :
  j <> k ->
  load_address m (element_address base k) = Some a ->
  mutate_all m (element_address base j) mus = Some m' ->
  element_address base (S k) = (element_address base k + 21)%nat /\
  load_Version m' (element_address base k) = Some (Version a) /\
  load_Key m' (element_address base k) = Some (Key a).
Proof.
  intros Hjk Ha Hmu. split.
  - unfold element_address. rewrite cipher__BitcoinAddress_size_eq. lia.
  - apply load_address_Some.
    apply (mutate_all_frame m m' _ (element_address base j) mus a);
      [|exact Ha | exact Hmu].
    unfold disjoint, element_address.
    rewrite cipher__BitcoinAddress_size_eq. lia.
Qed.

Lemma array_elements_independent_witness :
  element_address 0 1 = (element_address 0 0 + 21)%nat /\
  load_Version sample_mutated (element_address 0 0) = Some 0 /\
  load_Key sample_mutated (element_address 0 0) = Some hash_1_to_20.
Proof.
  apply (array_elements_independent sample_copied sample_mutated 0 1 0
           (new_address 0 hash_1_to_20) sample_mutations).
  - lia.
  - reflexivity.
  - reflexivity.
Defined.

(** Member assignments keep a value within its member types. *)
Lemma wf_assign (a a' : cipher__BitcoinAddress) (mu : mutation) :
  wf_address a -> assign a mu = Some a' -> wf_address a'.
Proof.
  intros (Hv & Hl & Hk). destruct mu as [n|i n]; simpl.
  - intros [= <-]. split; [apply to_uchar_range|]. split; assumption.
  - unfold set_Key_at. case_decide; [|discriminate]. intros [= <-].
    split; [exact Hv|]. split; simpl.
    + rewrite length_insert. exact Hl.
    + apply Forall_insert; [exact Hk | apply to_uchar_range].
Qed.

Lemma mutate_assign (m m' : mem) (p : nat) (a : cipher__BitcoinAddress)
  (mu : mutation) :
  load_address m p = Some a -> mutate m p mu = Some m' ->
  exists a', assign a mu = Some a' /\ load_address m' p = Some a'.
Proof.
  intros Ha Hmu. destruct mu as [n|i n]; simpl in *.
  - destruct (store_Version_load m p a n Ha) as (m1 & Hs & Hl).
    rewrite Hmu in Hs. injection Hs as <-. eexists; split; [reflexivity|].
    exact Hl.
  - assert (Hi : (i < 20)%nat).
    { unfold store_Key_at in Hmu. case_decide as Hi; [exact Hi|discriminate]. }
    destruct (store_Key_at_load m p a i n Ha Hi) as (m1 & Hs & Hl).
    rewrite Hmu in Hs. injection Hs as <-.
    unfold set_Key_at in *.
    rewrite decide_True in * by (change Key_size with 20%nat; exact Hi).
    eexists; split; [reflexivity | exact Hl].
Qed.

(** X6. Assignments through memory are the member assignments, and they
    keep the record within its types: starting from a record whose version
    and hash bytes are in 0..255, any sequence of member stores that runs
    leaves in memory the record the same assignments give on the value,
    again with a version in 0..255 and 20 hash bytes in 0..255. *)
Theorem stores_refine_assignments
  (m m' : mem) (p : nat) (a : cipher__BitcoinAddress) (mus : list mutation) :
  load_address m p = Some a ->
  wf_address a ->
  mutate_all m p mus = Some m' ->
  exists a', assign_all a mus = Some a' /\
             load_address m' p = Some a' /\
             0 <= Version a' <= 255 /\
             length (Key a') = 20%nat /\
             Forall (fun b => 0 <= b <= 255) (Key a').
Proof.
  revert m a. induction mus as [|mu mus IH]; intros m a Ha Hwf Hmu.
  - injection Hmu as <-. exists a. split; [reflexivity|].
    split; [exact Ha | exact Hwf].
  - simpl in Hmu. destruct (mutate m p mu) as [m1|] eqn:H1; [|discriminate].
    simpl in Hmu.
    destruct (mutate_assign m m1 p a mu Ha H1) as (a1 & Has & Hl1).
    destruct (IH m1 a1 Hl1 (wf_assign a a1 mu Hwf Has) Hmu)
      as (a' & Hall & Hrest).
    exists a'. split; [|exact Hrest].
    simpl. rewrite Has. exact Hall.
Qed.

Lemma stores_refine_assignments_witness :
  exists a',
    assign_all (new_address 0 hash_1_to_20) sample_mutations = Some a' /\
    load_address sample_mutated 21 = Some a' /\
    0 <= Version a' <= 255 /\
    length (Key a') = 20%nat /\
    Forall (fun b => 0 <= b <= 255) (Key a').
Proof.
  apply (stores_refine_assignments sample_copied sample_mutated 21
           (new_address 0 hash_1_to_20) sample_mutations).
  - reflexivity.
  - split; [vm_compute; split; discriminate|]. split; [reflexivity|].
    vm_compute. repeat (constructor; [split; discriminate|]). constructor.
  - reflexivity.
Defined.
